(* ===================================================================== *)
(* leautils.py : dice_set_freqs, the weighted enumeration of unordered   *)
(* rolls of N M-sided dice.                                              *)
(*                                                                       *)
(* Python integers are unbounded and every quantity below is             *)
(* non-negative (factorial raises on a negative n, and the quotient of   *)
(* non-negative integers by // is their natural-number quotient), so     *)
(* integers are modelled by nat, // by %/ and math.factorial by _`!.     *)
(* ===================================================================== *)

From mathcomp Require Import ssreflect ssrfun ssrbool eqtype ssrnat seq.
From mathcomp Require Import div path bigop fintype binomial.

Set Implicit Arguments.
Unset Strict Implicit.
Unset Printing Implicit Defensive.

(* --------------------------------------------------------------------- *)
(* itertools.combinations_with_replacement                               *)
(* --------------------------------------------------------------------- *)

Module Itertools.

Section Combinations.

Variable T : Type.

(* The r-length selections from pool, repetition allowed, positions of  *)
(* the pool never going backwards, in lexicographic order of positions: *)
(* a selection either starts with the head of the pool and continues    *)
(* with a selection from the same pool, or avoids the head altogether.  *)
Fixpoint combinations_with_replacement (pool : seq T) : nat -> seq (seq T) :=
  match pool with
  | [::] => fun r => if r is 0 then [:: [::]] else [::]
  | a :: pool' =>
      fix with_head (r : nat) : seq (seq T) :=
        if r is r'.+1
        then [seq a :: c | c <- with_head r'] ++
             combinations_with_replacement pool' r
        else [:: [::]]
  end.

(* The library documents the generator by the code

     pool = tuple(iterable)
     n = len(pool)
     if not n and r:
         return
     indices = [0] * r
     yield tuple(pool[i] for i in indices)
     while True:
         for i in reversed(range(r)):
             if indices[i] != n - 1:
                 break
         else:
             return
         indices[i:] = [indices[i] + 1] * (r - i)
         yield tuple(pool[i] for i in indices)

   which is modelled next, as a machine stepped by next(); that it      *)
(* yields the list above, then stops, is cwr_answers below.             *)

(* The for-else: the last i below r with indices[i] != n - 1, if any.   *)
(* (The loop body only runs when r > 0, hence n > 0.)                   *)
Fixpoint rightmost (n : nat) (indices : seq nat) (i : nat) : option nat :=
  if i is i'.+1 then
    if nth 0 indices i' != n - 1 then Some i' else rightmost n indices i'
  else None.

(* indices[i:] = [indices[i] + 1] * (r - i), None for the return *)
Definition next_indices (n r : nat) (indices : seq nat) : option (seq nat) :=
  if rightmost n indices r is Some i
  then Some (take i indices ++ nseq (r - i) (nth 0 indices i + 1))
  else None.

(* the index tuple that follows x is y *)
Definition steps_to (n r : nat) : rel (seq nat) :=
  fun x y => next_indices n r x == Some y.

(* tuple(pool[i] for i in indices); with an empty pool the generator    *)
(* only gets here with no index at all.                                 *)
Definition select (pool : seq T) (indices : seq nat) : seq T :=
  if pool is x0 :: _ then [seq nth x0 pool i | i <- indices] else [::].

(* Where the generator stands: not started, suspended at a yield with   *)
(* its indices, or returned.                                            *)
Inductive cwr_pc : Type :=
  | Fresh
  | Suspended (indices : seq nat)
  | Exhausted.

Record cwr_iter : Type := CwrIter {
  it_pool : seq T;
  it_r : nat;
  it_pc : cwr_pc
}.

Definition cwr_new (pool : seq T) (r : nat) : cwr_iter := CwrIter pool r Fresh.

(* next(it): the tuple yielded, or None for StopIteration. *)
Definition cwr_next (it : cwr_iter) : option (seq T) * cwr_iter :=
  let pool := it_pool it in
  let r := it_r it in
  let n := size pool in
  match it_pc it with
  | Fresh =>
      if (n == 0) && (r != 0) then (None, CwrIter pool r Exhausted)
      else
        let indices := nseq r 0 in
        (Some (select pool indices), CwrIter pool r (Suspended indices))
  | Suspended indices =>
      if next_indices n r indices is Some indices' then
        (Some (select pool indices'), CwrIter pool r (Suspended indices'))
      else (None, CwrIter pool r Exhausted)
  | Exhausted => (None, it)
  end.

(* k calls of next() on one iterator *)
Fixpoint cwr_nexts (k : nat) (it : cwr_iter) : seq (option (seq T)) :=
  if k is k'.+1 then
    let: (x, it') := cwr_next it in x :: cwr_nexts k' it'
  else [::].

(* rest is what the iterator has yet to yield: everything before it    *)
(* starts, nothing once it has returned, and in between the selections  *)
(* of the index tuples that follow the current one.                     *)
Definition cwr_left (it : cwr_iter) (rest : seq (seq T)) : Prop :=
  match it_pc it with
  | Fresh => rest = combinations_with_replacement (it_pool it) (it_r it)
  | Suspended x =>
      exists2 after,
        rest = [seq select (it_pool it) c | c <- after]
        & path (steps_to (size (it_pool it)) (it_r it)) x after /\
          next_indices (size (it_pool it)) (it_r it) (last x after) = None
  | Exhausted => rest = [::]
  end.

End Combinations.

(* What k calls of next() answer when the items of rest are still to be *)
(* yielded: the items in order, then StopIteration.                     *)
Fixpoint answers (A : Type) (rest : seq A) (k : nat) : seq (option A) :=
  if k is k'.+1 then ohead rest :: answers (behead rest) k' else [::].

End Itertools.

Import Itertools.

(* --------------------------------------------------------------------- *)
(* dice_set_freqs                                                        *)
(* --------------------------------------------------------------------- *)

(* range(1, m+1) *)
Definition faces (m : nat) : seq nat := iota 1 m.

(* The three locals of the inner loop: weight, run_len, prev_roll. *)
Record scan : Type := Scan {
  weight : nat;
  run_len : nat;
  prev_roll : option nat
}.

(* Lines 22-25: the run bookkeeping done for one roll, before the       *)
(* division is considered.  Returns (prev_roll, run_len).               *)
Definition advance_run (st : scan) (roll : nat) : option nat * nat :=
  let: (prev, run) :=
    if Some roll != prev_roll st then (Some roll, 0)
    else (prev_roll st, run_len st) in
  (prev, run + 1).

(* Lines 26-27: the operands (weight, run_len) of the floor division,   *)
(* when the body of the loop executes it for this roll.                 *)
Definition division_at (st : scan) (roll : nat) : option (nat * nat) :=
  let: (_, run) := advance_run st roll in
  if 1 < run then Some (weight st, run) else None.

(* One iteration of `for roll in outcome`. *)
Definition scan_roll (st : scan) (roll : nat) : scan :=
  let: (prev, run) := advance_run st roll in
  let w := if division_at st roll is Some (w, d) then w %/ d else weight st in
  Scan w run prev.

(* weight = permutations; run_len = 0; prev_roll = None *)
Definition scan_init (permutations : nat) : scan := Scan permutations 0 None.

Definition scan_outcome (st : scan) (outcome : seq nat) : scan :=
  foldl scan_roll st outcome.

(* The divisions executed while an outcome is scanned, in order. *)
Fixpoint divisions (st : scan) (outcome : seq nat) : seq (nat * nat) :=
  if outcome is roll :: outcome' then
    let rest := divisions (scan_roll st roll) outcome' in
    if division_at st roll is Some d then d :: rest else rest
  else [::].

Definition outcome_weight (permutations : nat) (outcome : seq nat) : nat :=
  weight (scan_outcome (scan_init permutations) outcome).

(* The generated sequence of (outcome, weight) pairs. *)
Definition dice_set_freqs (n m : nat) : seq (seq nat * nat) :=
  let permutations := n`! in
  [seq (outcome, outcome_weight permutations outcome)
  | outcome <- combinations_with_replacement (faces m) n].

(* The generator object itself.  Calling dice_set_freqs(n, m) runs no   *)
(* code; the body starts at the first next() and is then suspended at   *)
(* its yield, holding its locals: permutations and the iterator of the  *)
(* for loop.                                                            *)
Inductive dice_gen : Type :=
  | Created (n m : nat)
  | Looping (permutations : nat) (it : cwr_iter nat)
  | Returned.

(* The for loop, from the fetch of the next outcome to the yield. *)
Definition dice_loop (permutations : nat) (it : cwr_iter nat)
  : option (seq nat * nat) * dice_gen :=
  match cwr_next it with
  | (Some outcome, it') =>
      (Some (outcome, outcome_weight permutations outcome),
       Looping permutations it')
  | (None, _) => (None, Returned)
  end.

(* next(g): the pair yielded, or None for StopIteration. *)
Definition dice_next (g : dice_gen) : option (seq nat * nat) * dice_gen :=
  match g with
  | Created n m => dice_loop n`! (cwr_new (faces m) n)
  | Looping permutations it => dice_loop permutations it
  | Returned => (None, Returned)
  end.

(* rest is what the generator has yet to yield *)
Definition dice_left (g : dice_gen) (rest : seq (seq nat * nat)) : Prop :=
  match g with
  | Created n m => rest = dice_set_freqs n m
  | Looping permutations it =>
      exists2 outcomes,
        cwr_left it outcomes
        & rest = [seq (o, outcome_weight permutations o) | o <- outcomes]
  | Returned => rest = [::]
  end.

(* k calls of next() on one generator *)
Fixpoint nexts (k : nat) (g : dice_gen) : seq (option (seq nat * nat)) :=
  if k is k'.+1 then
    let: (x, g') := dice_next g in x :: nexts k' g'
  else [::].

(* Consuming a generator to its end, as the argument unpacking of       *)
(* dice_unordered does.                                                 *)
Fixpoint collect (fuel : nat) (g : dice_gen) : seq (seq nat * nat) :=
  if fuel is fuel'.+1 then
    if dice_next g is (Some p, g') then p :: collect fuel' g' else [::]
  else [::].

(* Two generators alive at once, advanced in the order of a schedule    *)
(* (true: the first one); the answers each of them gave.                *)
Fixpoint interleave (schedule : seq bool) (g1 g2 : dice_gen)
  : seq (option (seq nat * nat)) * seq (option (seq nat * nat)) :=
  if schedule is first :: schedule' then
    if first then
      let: (x, g1') := dice_next g1 in
      let: (a1, a2) := interleave schedule' g1' g2 in (x :: a1, a2)
    else
      let: (x, g2') := dice_next g2 in
      let: (a1, a2) := interleave schedule' g1 g2' in (a1, x :: a2)
  else ([::], [::]).

(* --------------------------------------------------------------------- *)
(* Vocabulary of the specification                                       *)
(* --------------------------------------------------------------------- *)

(* Python's ordering of tuples of integers: decided at the first place  *)
(* where they differ, a proper prefix coming first.                     *)
Fixpoint tuple_lt (s t : seq nat) : bool :=
  match s, t with
  | _, [::] => false
  | [::], _ :: _ => true
  | x :: s', y :: t' => (x < y) || ((x == y) && tuple_lt s' t')
  end.

Definition tuple_le (s t : seq nat) : bool := (s == t) || tuple_lt s t.

(* every value of the outcome lies in [1, m] *)
Definition in_faces (m : nat) (outcome : seq nat) : bool :=
  all (fun v => (1 <= v) && (v <= m)) outcome.

(* The lengths of the maximal runs of equal consecutive values. *)
Fixpoint run_lengths (s : seq nat) : seq nat :=
  if s is x :: s' then
    match run_lengths s' with
    | k :: ks => if x == head x s' then k.+1 :: ks else 1 :: k :: ks
    | [::] => [:: 1]
    end
  else [::].

(* The weight as the specification words it: the number of permutations *)
(* divided, in one step, by the product over the maximal runs of the    *)
(* factorial of the final length of the run.                            *)
Definition runs_divisor (outcome : seq nat) : nat :=
  \prod_(k <- run_lengths outcome) k`!.

Definition weight_in_one_step (permutations : nat) (outcome : seq nat) : nat :=
  permutations %/ runs_divisor outcome.

(* n1! * n2! * ... * nk!, the ni being the multiplicities of the        *)
(* distinct values of the outcome.                                      *)
Definition multiplicities_divisor (outcome : seq nat) : nat :=
  \prod_(v <- undup outcome) (count_mem v outcome)`!.

(* the same product, the value a left out *)
Definition others_divisor (a : nat) (outcome : seq nat) : nat :=
  \prod_(v <- undup outcome | v != a) (count_mem v outcome)`!.

(* run_len as lines 22-25 leave it *)
Definition next_run (st : scan) (roll : nat) : nat :=
  (if Some roll != prev_roll st then 0 else run_len st) + 1.

(* The product of the divisors met by a scan that enters the outcome    *)
(* with the run bookkeeping (prev, run); a run length of 1 contributes  *)
(* the factor 1, which is the division the code skips.                  *)
Fixpoint scan_divisor (prev : option nat) (run : nat) (outcome : seq nat) : nat :=
  if outcome is roll :: outcome' then
    let run' := (if Some roll != prev then 0 else run) + 1 in
    run' * scan_divisor (Some roll) run' outcome'
  else 1.

(* The ordered rolls of n dice with faces 1..m: every n-tuple of faces, *)
(* one for each way the n distinguishable dice can fall.                *)
Fixpoint rolls (m n : nat) : seq (seq nat) :=
  if n is n'.+1 then [seq v :: t | v <- faces m, t <- rolls m n']
  else [:: [::]].

(* the number of ordered rolls that are rearrangements of the outcome *)
Definition orderings (m : nat) (outcome : seq nat) : nat :=
  count (perm_eq outcome) (rolls m (size outcome)).

(* the product of the factorials of the multiplicities of the m faces *)
Definition faces_divisor (m : nat) (outcome : seq nat) : nat :=
  \prod_(v <- faces m) (count_mem v outcome)`!.

(* ===================================================================== *)
(* Properties                                                            *)
(* ===================================================================== *)

Section CombinationsTheory.

Variable T : Type.
Implicit Types (pool : seq T) (r : nat) (a : T).

Lemma cwr0 pool : combinations_with_replacement pool 0 = [:: [::]].
Proof. by case: pool. Qed.

Lemma cwr_nil r : combinations_with_replacement ([::] : seq T) r.+1 = [::].
Proof. by []. Qed.

Lemma cwr_cons a pool r :
  combinations_with_replacement (a :: pool) r.+1 =
  [seq a :: c | c <- combinations_with_replacement (a :: pool) r] ++
  combinations_with_replacement pool r.+1.
Proof. by []. Qed.

(* Pascal's rule, read on the two halves of cwr_cons. *)
Lemma size_cwr pool r :
  size (combinations_with_replacement pool r) = 'C(size pool + r - 1, r).
Proof.
elim: pool r => [|a pool IHp] r.
  by case: r => [|r] //; rewrite cwr_nil /= add0n subn1 /= bin_small.
elim: r => [|r IHr]; first by rewrite cwr0 bin0.
rewrite cwr_cons size_cat size_map IHr IHp /=.
by rewrite addSn !subn1 /= addnS /= binS addnC.
Qed.

Lemma size_in_cwr pool r :
  all (fun c => size c == r) (combinations_with_replacement pool r).
Proof.
elim: pool r => [|a pool IHp]; first by case.
elim=> [|r IHr]; first by rewrite cwr0.
rewrite cwr_cons all_cat IHp andbT all_map.
by apply: sub_all IHr => c /=.
Qed.

End CombinationsTheory.

Section CombinationsMem.

Variable T : eqType.
Implicit Types (pool : seq T) (r : nat) (a : T).

(* Every selection is made of elements of the pool. *)
Lemma cwr_mem pool r :
  all (all (mem pool)) (combinations_with_replacement pool r).
Proof.
elim: pool r => [|a pool IHp]; first by case.
elim=> [|r IHr]; first by rewrite cwr0.
rewrite cwr_cons all_cat all_map; apply/andP; split.
  by apply: sub_all IHr => c /= ->; rewrite mem_head.
apply: sub_all (IHp r.+1) => c; apply: sub_all => x /=.
by rewrite in_cons => ->; rewrite orbT.
Qed.

Lemma cwrP pool r c :
  c \in combinations_with_replacement pool r ->
  size c = r /\ {subset c <= pool}.
Proof.
move=> c_in; split.
  by apply/eqP; have /allP/(_ _ c_in) := size_in_cwr pool r.
by have /allP/(_ _ c_in)/allP := cwr_mem pool r.
Qed.

End CombinationsMem.

(* ---- order on tuples ------------------------------------------------ *)

Lemma tuple_lt_irr : irreflexive tuple_lt.
Proof. by elim=> [|x s IHs] //=; rewrite ltnn eqxx. Qed.

Lemma tuple_lt_trans : transitive tuple_lt.
Proof.
elim=> [|y t IHt] [|x s] [|z u] //=.
case/orP=> [lt_xy|/andP[/eqP-> lt_st]].
  case/orP=> [lt_yz|/andP[/eqP<- _]]; last by rewrite lt_xy.
  by rewrite (ltn_trans lt_xy lt_yz).
case/orP=> [->//|/andP[-> lt_tu]].
by rewrite (IHt _ _ lt_st lt_tu) orbT.
Qed.

Lemma tuple_le_trans : transitive tuple_le.
Proof.
move=> t s u /orP[/eqP->//|lt_st] /orP[/eqP<-|lt_tu].
  by rewrite /tuple_le lt_st orbT.
by rewrite /tuple_le (tuple_lt_trans lt_st lt_tu) orbT.
Qed.

Lemma tuple_lt_cons2 a s t : tuple_lt (a :: s) (a :: t) = tuple_lt s t.
Proof. by rewrite /= ltnn eqxx. Qed.

(* ---- the selections from an increasing pool ------------------------- *)

Section IncreasingPool.

Implicit Types (pool : seq nat) (r : nat).

Lemma cwr_sorted pool r :
  sorted ltn pool -> all (sorted leq) (combinations_with_replacement pool r).
Proof.
elim: pool r => [|a pool IHp]; first by case.
move=> r inc; have inc' : sorted ltn pool by apply: path_sorted inc.
elim: r => [|r IHr]; first by rewrite cwr0.
rewrite cwr_cons all_cat IHp // andbT all_map.
apply/allP=> c c_in /=; rewrite (path_sortedE leq_trans).
rewrite (allP IHr) // andbT; apply/allP=> x /(cwrP c_in).2.
rewrite in_cons => /orP[/eqP->//|x_in]; apply: ltnW.
by have /allP/(_ _ x_in) := order_path_min ltn_trans inc.
Qed.

(* Each earlier selection is strictly below each later one. *)
Lemma cwr_increasing pool r :
  sorted ltn pool -> pairwise tuple_lt (combinations_with_replacement pool r).
Proof.
elim: pool r => [|a pool IHp]; first by case.
move=> r inc; have inc' : sorted ltn pool by apply: path_sorted inc.
elim: r => [|r IHr]; first by rewrite cwr0.
rewrite cwr_cons pairwise_cat IHp // andbT pairwise_map.
apply/andP; split; last first.
  by apply: sub_pairwise IHr => s t /=; rewrite ltnn eqxx.
rewrite allrel_mapl; apply/allrelP=> s t _ t_in.
have [size_t sub_t] := cwrP t_in.
case: t size_t sub_t {t_in} => [|y t] // _ /(_ y (mem_head _ _)) y_in /=.
by have /allP/(_ _ y_in)-> := order_path_min ltn_trans inc.
Qed.

End IncreasingPool.

(* ---- the scan of one outcome ---------------------------------------- *)

Section Scan.

Implicit Types (st : scan) (roll : nat) (outcome : seq nat).

Lemma advance_runE st roll :
  advance_run st roll = (Some roll, next_run st roll).
Proof.
rewrite /advance_run /next_run; case: ifPn => // /negPn/eqP eq_prev.
by rewrite -eq_prev.
Qed.

Lemma next_run_gt0 st roll : 0 < next_run st roll.
Proof. by rewrite /next_run addn1. Qed.

Lemma division_atE st roll :
  division_at st roll =
  if 1 < next_run st roll then Some (weight st, next_run st roll) else None.
Proof. by rewrite /division_at advance_runE. Qed.

(* Skipping the division when run_len = 1 is dividing by 1. *)
Lemma scan_rollE st roll :
  scan_roll st roll =
  Scan (weight st %/ next_run st roll) (next_run st roll) (Some roll).
Proof.
rewrite /scan_roll division_atE advance_runE.
case: ltnP => // le1; congr Scan.
have /eqP-> : next_run st roll == 1 by rewrite eqn_leq le1 next_run_gt0.
by rewrite divn1.
Qed.

Lemma scan_divisor_cons st roll outcome :
  scan_divisor (prev_roll st) (run_len st) (roll :: outcome) =
  next_run st roll * scan_divisor (Some roll) (next_run st roll) outcome.
Proof. by []. Qed.

Lemma scan_divisor_gt0 prev run outcome : 0 < scan_divisor prev run outcome.
Proof.
elim: outcome prev run => [|roll outcome IHo] prev run //=.
by rewrite muln_gt0 addn1 IHo.
Qed.

(* The scan divides the entering weight by scan_divisor, whatever the   *)
(* weight: successive floor divisions compose.                          *)
Lemma weight_scan st outcome :
  weight (scan_outcome st outcome) =
  weight st %/ scan_divisor (prev_roll st) (run_len st) outcome.
Proof.
elim: outcome st => [|roll outcome IHo] st; first by rewrite /= divn1.
rewrite scan_divisor_cons divnMA /scan_outcome /= -/(scan_outcome _ _).
by rewrite IHo scan_rollE.
Qed.

(* When the whole divisor divides the entering weight, every division   *)
(* executed on the way is exact.                                        *)
Lemma divisions_exact st outcome :
  scan_divisor (prev_roll st) (run_len st) outcome %| weight st ->
  all (fun d => d.2 %| d.1) (divisions st outcome).
Proof.
elim: outcome st => [|roll outcome IHo] st //.
rewrite scan_divisor_cons => dvd_w.
have dvd_run : next_run st roll %| weight st.
  by apply: dvdn_trans dvd_w; apply: dvdn_mulr.
have {}IHo : all (fun d => d.2 %| d.1) (divisions (scan_roll st roll) outcome).
  by apply: IHo; rewrite scan_rollE /= dvdn_divRL // mulnC.
by rewrite /= division_atE; case: ifP => _ //=; rewrite dvd_run.
Qed.

End Scan.

(* ---- the divisor of a scan ------------------------------------------ *)

Section Divisor.

Implicit Types (a x k : nat) (o : seq nat) (prev : option nat).

Lemma fact_mul_dvd a b : a`! * b`! %| (a + b)`!.
Proof. by rewrite -(@bin_fact (a + b) a) ?leq_addr // addKn dvdn_mull. Qed.

Lemma scan_divisor_same a k o :
  scan_divisor (Some a) k (a :: o) = k.+1 * scan_divisor (Some a) k.+1 o.
Proof. by rewrite /= eqxx /= addn1. Qed.

Lemma scan_divisor_new prev k x o :
  Some x != prev ->
  scan_divisor prev k (x :: o) = scan_divisor (Some x) 1 o.
Proof. by rewrite /= => ->; rewrite mul1n. Qed.

(* The divisor of a scan entered with a run of k, times k!, divides the *)
(* factorial of the number of rolls seen when the scan ends.            *)
Lemma scan_divisor_dvd prev k o :
  scan_divisor prev k o * k`! %| (k + size o)`!.
Proof.
elim: o prev k => [|x o IHo] prev k; first by rewrite /= mul1n addn0.
have [new|/negPn/eqP<-] := boolP (Some x != prev).
  rewrite scan_divisor_new //.
  apply: dvdn_trans (fact_mul_dvd _ _); rewrite mulnC dvdn_mul //.
  by have := IHo (Some x) 1; rewrite muln1 add1n.
rewrite scan_divisor_same mulnAC -factS mulnC /= addnS -addSn.
exact: IHo.
Qed.

Lemma scan_divisor0_dvd o : scan_divisor None 0 o %| (size o)`!.
Proof. by have := scan_divisor_dvd None 0 o; rewrite muln1 add0n. Qed.

(* run_lengths, read from the left *)

Lemma nseq_cat_cons T k (a : T) (s : seq T) :
  nseq k a ++ a :: s = a :: nseq k a ++ s.
Proof. by elim: k => //= k ->. Qed.

Lemma run_lengthsS x o :
  run_lengths (x :: o) =
  match run_lengths o with
  | k :: ks => if x == head x o then k.+1 :: ks else 1 :: k :: ks
  | [::] => [:: 1]
  end.
Proof. by []. Qed.

Lemma run_lengths_cons x o : exists k ks, run_lengths (x :: o) = k :: ks.
Proof.
rewrite run_lengthsS; case: (run_lengths o) => [|k ks]; first by exists 1, [::].
by case: ifP => _; [exists k.+1, ks | exists 1, (k :: ks)].
Qed.

Lemma run_lengths_prefix a k x o :
  a != x ->
  run_lengths (nseq k.+1 a ++ x :: o) = k.+1 :: run_lengths (x :: o).
Proof.
move=> ne_ax; have [j [js rl]] := run_lengths_cons x o.
elim: k => [|k IHk].
  by rewrite -[nseq 1 a ++ _]/(a :: x :: o) run_lengthsS rl /= (negPf ne_ax).
rewrite -[nseq k.+2 a ++ _]/(a :: (nseq k.+1 a ++ x :: o)) run_lengthsS IHk.
by rewrite [head _ _]/= eqxx.
Qed.

Lemma run_lengths_nseq a k : run_lengths (nseq k.+1 a) = [:: k.+1].
Proof.
elim: k => [|k IHk] //.
by rewrite -[nseq k.+2 a]/(a :: nseq k.+1 a) run_lengthsS IHk /= eqxx.
Qed.

Lemma runs_divisor_run a k o :
  scan_divisor (Some a) k.+1 o * (k.+1)`! = runs_divisor (nseq k.+1 a ++ o).
Proof.
elim: o a k => [|x o IHo] a k.
  by rewrite cats0 /runs_divisor run_lengths_nseq big_seq1 /= mul1n.
have [/eqP<-|ne_ax] := boolP (a == x).
  rewrite scan_divisor_same nseq_cat_cons -[a :: _ ++ _]/(nseq k.+2 a ++ o).
  by rewrite -IHo [in RHS]factS mulnCA mulnA.
have new : Some x != Some a by rewrite eq_sym.
rewrite scan_divisor_new //.
rewrite /runs_divisor run_lengths_prefix // big_cons -/(runs_divisor _).
by rewrite -[x :: o]/(nseq 1 x ++ o) -IHo muln1 mulnC.
Qed.

(* The divisor of a whole scan is the product of the factorials of the  *)
(* lengths of the maximal runs.                                         *)
Lemma scan_divisor_runs o : scan_divisor None 0 o = runs_divisor o.
Proof.
case: o => [|x o]; first by rewrite /runs_divisor big_nil.
by rewrite scan_divisor_new // -[x :: o]/(nseq 1 x ++ o) -runs_divisor_run muln1.
Qed.

End Divisor.

(* ---- runs and multiplicities of a non-decreasing outcome ------------ *)

Section Multiplicities.

Implicit Types (a x k : nat) (o : seq nat).

Lemma others_notin a o :
  a \notin o -> others_divisor a o = multiplicities_divisor o.
Proof.
move=> a_notin; rewrite /others_divisor big_mkcond /=.
apply: eq_big_seq => v; rewrite mem_undup => v_in.
by case: eqP a_notin => // <-; rewrite v_in.
Qed.

Lemma others_same a o : others_divisor a (a :: o) = others_divisor a o.
Proof.
rewrite /others_divisor /=; case: ifP => _; last rewrite big_cons eqxx /=.
  by apply: eq_bigr => v ne_va /=; rewrite eq_sym (negPf ne_va).
by apply: eq_bigr => v ne_va /=; rewrite eq_sym (negPf ne_va).
Qed.

Lemma multiplicities_cons x o :
  multiplicities_divisor (x :: o) = (count_mem x o).+1`! * others_divisor x o.
Proof.
rewrite /multiplicities_divisor /others_divisor.
have eq_others v : v != x -> (count_mem v (x :: o))`! = (count_mem v o)`!.
  by move=> ne_vx /=; rewrite eq_sym (negPf ne_vx).
have [x_in|x_notin] := boolP (x \in o).
  rewrite [undup _]/= x_in (bigD1_seq x) ?mem_undup ?undup_uniq //=.
  by rewrite eqxx add1n; congr (_ * _); apply: eq_bigr.
rewrite [undup _]/= (negPf x_notin) big_cons /= eqxx add1n; congr (_ * _).
rewrite -/(others_divisor x o) others_notin //.
apply: eq_big_seq => v; rewrite mem_undup => v_in /=.
by case: eqP v_in x_notin => [<- ->|].
Qed.

Lemma above_notin a x o : a < x -> path leq x o -> a \notin x :: o.
Proof.
move=> lt_ax /(order_path_min leq_trans)/allP le_x.
rewrite in_cons negb_or neq_ltn lt_ax /=.
by apply/negP=> /le_x; rewrite leqNgt lt_ax.
Qed.

(* In a non-decreasing outcome the equal values are adjacent: a scan    *)
(* entered with k copies of a already seen ends with the multiplicity   *)
(* of a completed, and with one run for each other value.               *)
Lemma scan_divisor_sorted a k o :
  path leq a o ->
  scan_divisor (Some a) k o * k`! =
  (k + count_mem a o)`! * others_divisor a o.
Proof.
elim: o a k => [|x o IHo] a k.
  by rewrite /others_divisor big_nil /= addn0 mul1n muln1.
have [/eqP<- /andP[_ le_o]|ne_ax] := boolP (a == x).
  rewrite scan_divisor_same others_same mulnAC -factS mulnC IHo //=.
  by rewrite eqxx add1n addSn addnS.
rewrite [path _ _ _]/= leq_eqVlt (negPf ne_ax) orFb => /andP[lt_ax le_o].
have new : Some x != Some a by rewrite eq_sym.
have a_notin := above_notin lt_ax le_o.
rewrite scan_divisor_new // (count_memPn a_notin) addn0 others_notin //.
rewrite multiplicities_cons mulnC; congr (_ * _).
by have := IHo x 1 le_o; rewrite muln1 add1n.
Qed.

Lemma scan_divisor_multiplicities o :
  sorted leq o -> scan_divisor None 0 o = multiplicities_divisor o.
Proof.
case: o => [_|x o le_o]; first by rewrite /multiplicities_divisor big_nil.
rewrite scan_divisor_new // multiplicities_cons.
by have := scan_divisor_sorted 1 le_o; rewrite muln1 add1n.
Qed.

End Multiplicities.

(* ---- the sum of the weights ----------------------------------------- *)

Section WeightSum.

(* The selections from a :: pool, sorted by the number k of leading a. *)
Lemma sum_cwr_cons (T : Type) (a : T) (pool : seq T) r (g : seq T -> nat) :
  \sum_(c <- combinations_with_replacement (a :: pool) r) g c =
  \sum_(k < r.+1)
     \sum_(c <- combinations_with_replacement pool (r - k)) g (nseq k a ++ c).
Proof.
elim: r g => [|r IHr] g.
  by rewrite cwr0 big_ord_recl big_ord0 subn0 cwr0 !big_seq1 addn0.
rewrite cwr_cons big_cat big_map IHr [RHS]big_ord_recl subn0 [RHS]addnC.
by congr (_ + _); apply: eq_bigr => k _; rewrite /bump /= add1n subSS.
Qed.

Implicit Types (a k : nat) (o : seq nat).

Lemma scan_divisor_fresh a k o :
  a \notin o -> scan_divisor (Some a) k o = scan_divisor None 0 o.
Proof.
case: o => [|x o] //; rewrite in_cons negb_or => /andP[ne_ax _].
have new : Some x != Some a by rewrite eq_sym.
by rewrite !scan_divisor_new.
Qed.

Lemma scan_divisor_nseq a k o :
  a \notin o ->
  scan_divisor None 0 (nseq k a ++ o) = k`! * scan_divisor None 0 o.
Proof.
case: k => [|k] a_notin; first by rewrite mul1n.
by rewrite scan_divisor_runs -runs_divisor_run scan_divisor_fresh // mulnC.
Qed.

(* n! / (k! * d) = C(n, k) * ((n - k)! / d) when d divides (n - k)! *)
Lemma fact_div_split n k d :
  k <= n -> d %| (n - k)`! -> n`! %/ (k`! * d) = 'C(n, k) * ((n - k)`! %/ d).
Proof.
move=> le_kn dvd_d; rewrite muln_divA // -(bin_fact le_kn).
by rewrite [k`! * _]mulnC mulnA [k`! * d]mulnC divnMr ?fact_gt0.
Qed.

(* The multinomial theorem at (1, ..., 1). *)
Lemma sum_weights (pool : seq nat) r :
  uniq pool ->
  \sum_(o <- combinations_with_replacement pool r)
     r`! %/ scan_divisor None 0 o = size pool ^ r.
Proof.
elim: pool r => [|a pool IHp] r.
  case: r => [|r] _; first by rewrite cwr0 big_seq1.
  by rewrite cwr_nil big_nil exp0n.
rewrite [uniq _]/= => /andP[a_notin uniq_p].
rewrite sum_cwr_cons [size _]/= -(addn1 (size pool)) expnDn.
apply: eq_bigr => k _; rewrite exp1n muln1 -(IHp _ uniq_p) big_distrr.
apply: eq_big_seq => o /cwrP[size_o sub_o].
have a_o : a \notin o by apply: contra a_notin; apply: sub_o.
have le_kr : k <= r by rewrite -ltnS.
have dvd_o : scan_divisor None 0 o %| (r - k)`!.
  by rewrite -size_o scan_divisor0_dvd.
by rewrite (scan_divisor_nseq _ a_o) (fact_div_split le_kr dvd_o).
Qed.

End WeightSum.

(* ---- the generated pairs -------------------------------------------- *)

Section Pairs.

Implicit Types (n m : nat) (p : seq nat * nat).

Lemma faces_increasing m : sorted ltn (faces m).
Proof. exact: iota_ltn_sorted. Qed.

Lemma faces_uniq m : uniq (faces m).
Proof. exact: iota_uniq. Qed.

Lemma mem_faces m v : (v \in faces m) = (1 <= v) && (v <= m).
Proof. by rewrite mem_iota add1n ltnS. Qed.

Lemma outcomes_freqs n m :
  [seq p.1 | p <- dice_set_freqs n m] =
  combinations_with_replacement (faces m) n.
Proof. by rewrite /dice_set_freqs -map_comp map_id_in. Qed.

Lemma outcome_weightE permutations o :
  outcome_weight permutations o = permutations %/ scan_divisor None 0 o.
Proof. by rewrite /outcome_weight weight_scan. Qed.

(* What is known of a yielded pair. *)
Lemma freqsP n m p :
  p \in dice_set_freqs n m ->
  [/\ p.1 \in combinations_with_replacement (faces m) n,
      size p.1 = n, sorted leq p.1
    & p.2 = n`! %/ scan_divisor None 0 p.1].
Proof.
case/mapP=> o o_in ->; have [size_o _] := cwrP o_in.
split=> //=; last exact: outcome_weightE.
by have /allP/(_ _ o_in) := cwr_sorted n (faces_increasing m).
Qed.

Lemma cwr1 (T : Type) (pool : seq T) :
  combinations_with_replacement pool 1 = [seq [:: a] | a <- pool].
Proof. by elim: pool => [|a pool IHp] //; rewrite cwr_cons cwr0 IHp. Qed.

End Pairs.

(* ---- the generator of the library ----------------------------------- *)

Section Generator.

Variable n : nat.
Implicit Types (r lo k a i : nat) (x y : seq nat).

Lemma rightmost_cons a x i :
  rightmost n (a :: x) i.+1 =
  if rightmost n x i is Some j then Some j.+1
  else if a != n - 1 then Some 0 else None.
Proof.
elim: i => [|i IHi] //.
rewrite [LHS]/= -/(rightmost n (a :: x) i.+1) IHi [rightmost n x i.+1]/=.
by case: ifP.
Qed.

(* The search for the place to bump, one index at a time from the left. *)
Lemma next_indices_cons r a x :
  next_indices n r.+1 (a :: x) =
  if next_indices n r x is Some y then Some (a :: y)
  else if a != n - 1 then Some (nseq r.+1 (a + 1)) else None.
Proof.
rewrite /next_indices rightmost_cons.
case: (rightmost n x r) => [j|]; first by rewrite subSS.
by case: ifP => // _; rewrite subn0 take0.
Qed.

Lemma next_indices_top r : next_indices n r (nseq r (n - 1)) = None.
Proof.
elim: r => [|r IHr] //.
by rewrite -[nseq r.+1 _]/(_ :: nseq r _) next_indices_cons IHr eqxx.
Qed.

Lemma cwr_single (T : Type) (a : T) r :
  combinations_with_replacement [:: a] r = [:: nseq r a].
Proof. by elim: r => [|r IHr] //; rewrite cwr_cons IHr. Qed.

(* The selections of positions lo .. lo + k, where lo + k is the last   *)
(* position n - 1: they start at (lo, ..., lo), each is followed by its *)
(* successor, and they end at (n - 1, ..., n - 1).                      *)
Lemma cwr_chain k lo r :
  lo + k.+1 = n ->
  exists2 rest,
    combinations_with_replacement (iota lo k.+1) r = nseq r lo :: rest
    & path (steps_to n r) (nseq r lo) rest /\
      last (nseq r lo) rest = nseq r (n - 1).
Proof.
elim: k lo r => [|k IHk] lo r eq_n.
  exists [::]; first by rewrite cwr_single.
  by rewrite -eq_n addn1 subn1.
elim: r => [|r [rest1 cwr1E [path1 last1]]].
  by exists [::]; rewrite ?cwr0.
have [|rest2 cwr2E [path2 last2]] := IHk lo.+1 r.+1; first by rewrite addSnnS.
rewrite -[iota lo k.+2]/(lo :: iota lo.+1 k.+1) cwr_cons cwr2E.
rewrite -/(iota lo k.+2) cwr1E.
exists ([seq lo :: c | c <- rest1] ++ nseq r.+1 lo.+1 :: rest2) => //.
rewrite last_cat last_cons last2 cat_path /= path2 andbT.
rewrite -[lo :: nseq r lo]/((cons lo) (nseq r lo)) last_map last1 path_map.
split=> //; apply/andP; split.
  apply: sub_path path1 => x y /eqP next_x.
  by rewrite /steps_to /= next_indices_cons next_x.
rewrite /steps_to next_indices_cons next_indices_top -eq_n addnS subn1 /=.
by rewrite -[X in X != _]addn0 eqn_add2l /= addn1.
Qed.

End Generator.

(* ---- what the generators have left to yield ------------------------- *)

Section Remaining.

Variable T : Type.
Implicit Types (pool : seq T) (r : nat) (it : cwr_iter T).

Lemma cwr_map (U : Type) (f : U -> T) (p : seq U) r :
  combinations_with_replacement [seq f a | a <- p] r =
  [seq [seq f a | a <- c] | c <- combinations_with_replacement p r].
Proof.
elim: p r => [|a p IHp]; first by case.
elim=> [|r IHr]; first by rewrite !cwr0.
rewrite -[map f _]/(f a :: map f p) !cwr_cons map_cat IHp.
by rewrite -/(map f (a :: p)) IHr -!map_comp.
Qed.

(* The selections are the selections of positions, read in the pool. *)
Lemma cwr_select pool r :
  combinations_with_replacement pool r =
  [seq select pool c | c <- combinations_with_replacement (iota 0 (size pool)) r].
Proof.
case: pool => [|x0 pool]; first by case: r.
rewrite -[in LHS](mkseq_nth x0 (x0 :: pool)) /mkseq cwr_map.
exact: eq_map.
Qed.

Lemma cwr_new_left pool r :
  cwr_left (cwr_new pool r) (combinations_with_replacement pool r).
Proof. by []. Qed.

(* The first selection is made of the first position, the last one of   *)
(* the last position, and each is followed by its successor.            *)
Lemma cwr_first pool r :
  if (size pool == 0) && (r != 0)
  then combinations_with_replacement pool r = [::]
  else exists2 after,
    combinations_with_replacement pool r =
    select pool (nseq r 0) :: [seq select pool c | c <- after]
    & path (steps_to (size pool) r) (nseq r 0) after /\
      next_indices (size pool) r (last (nseq r 0) after) = None.
Proof.
case: pool => [|x0 pool]; first by case: r => [|r] //; exists [::].
have [after cwrE [path_a last_a]] := @cwr_chain _ (size pool) 0 r (add0n _).
rewrite [_ && _]/= cwr_select cwrE; exists after => //.
by rewrite last_a next_indices_top.
Qed.

(* next() answers the head of what is left, and the tail is left. *)
Lemma cwr_next_left it rest :
  cwr_left it rest ->
  (cwr_next it).1 = ohead rest /\ cwr_left (cwr_next it).2 (behead rest).
Proof.
case: it => pool r [|x|]; rewrite /cwr_left /cwr_next /=; last by move=> ->.
  move=> ->; have := cwr_first pool r; case: ifP => _ [].
    by move=> ->.
  by move=> after -> [path_a last_a]; split=> //; exists after.
case=> [[|y after]] -> /= [].
  by move=> _ ->.
by rewrite {1}/steps_to => /andP[/eqP-> path_a] last_a; split=> //; exists after.
Qed.

(* The generator yields the list, in order, then stops for good. *)
Lemma cwr_answers pool r k :
  cwr_nexts k (cwr_new pool r) =
  answers (combinations_with_replacement pool r) k.
Proof.
have: cwr_left (cwr_new pool r) (combinations_with_replacement pool r) by [].
elim: k (cwr_new pool r) (combinations_with_replacement _ _) => [|k IHk] it rest //.
move=> /cwr_next_left[] /=.
by case: (cwr_next it) => x it' /= -> /IHk->.
Qed.

End Remaining.

Section DiceGenerator.

Implicit Types (g : dice_gen) (rest : seq (seq nat * nat)) (k : nat).

Lemma dice_loop_left permutations it outcomes :
  cwr_left it outcomes ->
  let rest := [seq (o, outcome_weight permutations o) | o <- outcomes] in
  (dice_loop permutations it).1 = ohead rest /\
  dice_left (dice_loop permutations it).2 (behead rest).
Proof.
move=> /cwr_next_left[]; rewrite /dice_loop.
case: (cwr_next it) => [[o|] it'] /=; case: outcomes => [|o' outcomes] //=.
by case=> -> left'; split=> //; exists outcomes.
Qed.

(* next() answers the head of what is left, and the tail is left. *)
Lemma dice_next_left g rest :
  dice_left g rest ->
  (dice_next g).1 = ohead rest /\ dice_left (dice_next g).2 (behead rest).
Proof.
case: g => [n m|permutations it|] /=; last by move=> ->.
  by move=> ->; apply: dice_loop_left; apply: cwr_new_left.
by case=> outcomes left_it ->; apply: dice_loop_left.
Qed.

Lemma nexts_left k g rest : dice_left g rest -> nexts k g = answers rest k.
Proof.
elim: k g rest => [|k IHk] g rest // /dice_next_left[] /=.
by case: (dice_next g) => x g' /= -> /IHk->.
Qed.

(* Consumed to its end, the generator has given the list. *)
Lemma collect_left fuel g rest :
  dice_left g rest -> size rest < fuel -> collect fuel g = rest.
Proof.
elim: fuel g rest => [|fuel IHf] g rest // /dice_next_left[] /=.
case: (dice_next g) => x g' /= ->; case: rest => [|p rest] //= left' lt_f.
by rewrite (IHf _ _ left').
Qed.

Lemma collect_freqs n m fuel :
  size (dice_set_freqs n m) < fuel ->
  collect fuel (Created n m) = dice_set_freqs n m.
Proof. exact: collect_left. Qed.

(* Advancing one generator leaves the other one where it was. *)
Lemma interleave_left schedule g1 g2 rest1 rest2 :
  dice_left g1 rest1 -> dice_left g2 rest2 ->
  interleave schedule g1 g2 =
  (answers rest1 (count id schedule), answers rest2 (count negb schedule)).
Proof.
elim: schedule g1 g2 rest1 rest2 => [|[] schedule IHs] g1 g2 rest1 rest2 //=.
  move=> /dice_next_left[]; case: (dice_next g1) => x g1' /= -> left1 left2.
  by rewrite (IHs _ _ _ _ left1 left2).
move=> left1 /dice_next_left[]; case: (dice_next g2) => x g2' /= -> left2.
by rewrite (IHs _ _ _ _ left1 left2).
Qed.

End DiceGenerator.

(* ---- the code at work ----------------------------------------------- *)

Example three_coins :
  dice_set_freqs 3 2 =
  [:: ([:: 1; 1; 1], 1); ([:: 1; 1; 2], 3); ([:: 1; 2; 2], 3);
      ([:: 2; 2; 2], 1)].
Proof. by []. Qed.

Example three_coins_generator :
  nexts 6 (Created 3 2) =
  [:: Some ([:: 1; 1; 1], 1); Some ([:: 1; 1; 2], 3); Some ([:: 1; 2; 2], 3);
      Some ([:: 2; 2; 2], 1); None; None].
Proof. by []. Qed.

Example letters_generator :
  cwr_nexts 7 (cwr_new [:: true; false] 2) =
  [:: Some [:: true; true]; Some [:: true; false]; Some [:: false; false];
      None; None; None; None].
Proof. by []. Qed.

Example scan_1112 :
  divisions (scan_init 4`!) [:: 1; 1; 1; 2] = [:: (24, 2); (12, 3)] /\
  outcome_weight 4`! [:: 1; 1; 1; 2] = 4 /\
  run_lengths [:: 1; 1; 1; 2] = [:: 3; 1].
Proof. by []. Qed.

(* Off the outcomes of the generator the runs are not the               *)
(* multiplicities, and the scan follows the runs.                       *)
Example scan_121 :
  outcome_weight 3`! [:: 1; 2; 1] = 6 /\ run_lengths [:: 1; 2; 1] = [:: 1; 1; 1].
Proof. by []. Qed.

(* ===================================================================== *)
(* The claims                                                            *)
(* ===================================================================== *)

(** C1: the weights of the pairs yielded by dice_set_freqs(N, M) add up
    to M^N.  (Holds for every N and M, N = 0 or M = 0 included.) *)
Theorem weight_sum n m : \sum_(p <- dice_set_freqs n m) p.2 = m ^ n.
Proof.
rewrite /dice_set_freqs big_map /= -[in RHS](size_iota 1 m).
rewrite -(sum_weights n (faces_uniq m)).
by apply: eq_bigr => o _; rewrite outcome_weightE.
Qed.

(** C2: in every pair yielded by dice_set_freqs(N, M), the product
    n1! * ... * nk! of the factorials of the multiplicities of the distinct
    values of the outcome divides N!, and the weight is the quotient
    N! / (n1! * ... * nk!). *)
Theorem weight_multinomial n m :
  all (fun p => (multiplicities_divisor p.1 %| n`!) &&
                (p.2 == n`! %/ multiplicities_divisor p.1))
      (dice_set_freqs n m).
Proof.
apply/allP=> p /freqsP[_ size_p sorted_p ->].
rewrite -(scan_divisor_multiplicities sorted_p) eqxx andbT.
by rewrite -size_p scan_divisor0_dvd.
Qed.

(** C3: dice_set_freqs(N, M) yields C(M+N-1, N) pairs, and no outcome
    is yielded twice. *)
Theorem outcome_count n m :
  size (dice_set_freqs n m) = 'C(m + n - 1, n) /\
  uniq [seq p.1 | p <- dice_set_freqs n m].
Proof.
split; first by rewrite size_map size_cwr size_iota.
rewrite outcomes_freqs; apply: pairwise_uniq tuple_lt_irr _.
exact/cwr_increasing/faces_increasing.
Qed.

(** C4: every outcome yielded by dice_set_freqs(N, M) is a non-decreasing
    sequence of N integers of [1, M], and the outcomes come in
    non-decreasing lexicographic order. *)
Theorem outcome_order n m :
  all (fun p => [&& size p.1 == n, sorted leq p.1 & in_faces m p.1])
      (dice_set_freqs n m) /\
  sorted tuple_le [seq p.1 | p <- dice_set_freqs n m].
Proof.
split.
  apply/allP=> p /freqsP[/cwrP[_ sub_p] -> -> _]; rewrite eqxx /=.
  by apply/allP=> v /sub_p; rewrite mem_faces.
rewrite outcomes_freqs; apply: pairwise_sorted.
apply: sub_pairwise (cwr_increasing n (faces_increasing m)) => s t lt_st.
by rewrite /tuple_le lt_st orbT.
Qed.

(** C5: scanning an outcome with the running division gives the same
    integer as dividing once by the product of the factorials of the
    lengths of its maximal runs, whatever the outcome and the number of
    permutations the scan starts from; for the pairs of
    dice_set_freqs(N, M) this product divides N! and the yielded weight
    is N! divided by it. *)
Theorem incremental_is_one_step n m :
  (forall permutations outcome,
     outcome_weight permutations outcome =
     weight_in_one_step permutations outcome) /\
  all (fun p => (runs_divisor p.1 %| n`!) &&
                (p.2 == weight_in_one_step n`! p.1))
      (dice_set_freqs n m).
Proof.
split=> [permutations o|].
  by rewrite outcome_weightE /weight_in_one_step scan_divisor_runs.
apply/allP=> p /freqsP[_ size_p _ ->].
rewrite /weight_in_one_step -scan_divisor_runs eqxx andbT.
by rewrite -size_p scan_divisor0_dvd.
Qed.

(** C6: while the outcomes of dice_set_freqs(N, M) are scanned, every
    division weight // run_len that is executed has run_len dividing the
    current weight. *)
Theorem division_exact n m :
  all (fun p => all (fun d => d.2 %| d.1) (divisions (scan_init n`!) p.1))
      (dice_set_freqs n m).
Proof.
apply/allP=> p /freqsP[_ size_p _ _]; apply: divisions_exact.
by rewrite /= -size_p scan_divisor0_dvd.
Qed.

(** C7: dice_set_freqs(2, 6) yields 21 pairs; the outcome (1,1) comes
    once, with weight 1, (1,2) once with weight 2, (6,6) once with weight
    1, and the 21 weights add up to 36. *)
Theorem two_six_sided_dice :
  [/\ size (dice_set_freqs 2 6) = 21,
      [seq p <- dice_set_freqs 2 6 | p.1 == [:: 1; 1]] = [:: ([:: 1; 1], 1)],
      [seq p <- dice_set_freqs 2 6 | p.1 == [:: 1; 2]] = [:: ([:: 1; 2], 2)],
      [seq p <- dice_set_freqs 2 6 | p.1 == [:: 6; 6]] = [:: ([:: 6; 6], 1)]
    & \sum_(p <- dice_set_freqs 2 6) p.2 = 36].
Proof. by split; rewrite ?unlock. Qed.

(** C8: dice_set_freqs(1, M) yields the M pairs ((v,), 1), v = 1..M:
    singleton outcomes, weight 1 each, the weights adding up to M. *)
Theorem one_die m :
  [/\ dice_set_freqs 1 m = [seq ([:: v], 1) | v <- faces m],
      size (dice_set_freqs 1 m) = m
    & \sum_(p <- dice_set_freqs 1 m) p.2 = m].
Proof.
have one : dice_set_freqs 1 m = [seq ([:: v], 1) | v <- faces m].
  by rewrite /dice_set_freqs cwr1 -map_comp.
split=> //; first by rewrite one size_map size_iota.
by rewrite one big_map sum1_size size_iota.
Qed.

(** C10: dice_set_freqs(0, M) yields the single pair ((), 1), and
    dice_set_freqs(N, 0) yields nothing when N >= 1. *)
Theorem no_dice_no_faces n m :
  dice_set_freqs 0 m = [:: ([::], 1)] /\ dice_set_freqs n.+1 0 = [::].
Proof. by rewrite /dice_set_freqs cwr0. Qed.

(** C9: two invocations of dice_set_freqs(N, M) give two generators
    that answer with the same sequence of pairs, that of
    dice_set_freqs n m followed by StopIteration, each at its own pace
    and whatever the order in which the two are advanced: neither sees
    what the other has consumed. *)
Theorem restartable n m schedule :
  interleave schedule (Created n m) (Created n m) =
  (answers (dice_set_freqs n m) (count id schedule),
   answers (dice_set_freqs n m) (count negb schedule)).
Proof. exact: interleave_left. Qed.

(* ===================================================================== *)
(* Further properties of the code                                        *)
(* ===================================================================== *)

(* ---- the outcomes are all the non-decreasing tuples ----------------- *)

Section Completeness.

Implicit Types (pool o : seq nat) (r : nat).

Lemma cwr_complete pool r o :
  sorted ltn pool -> size o = r -> sorted leq o -> {subset o <= pool} ->
  o \in combinations_with_replacement pool r.
Proof.
elim: pool r o => [|a pool IHp] r o.
  move=> _ <-; case: o => [|x o] // _ /(_ x (mem_head _ _)).
  by rewrite in_nil.
move=> inc; have inc' : sorted ltn pool by apply: path_sorted inc.
have /allP lt_a := order_path_min ltn_trans inc.
elim: r o => [|r IHr] o; first by case: o => //; rewrite cwr0.
case: o => [|x o] // /succn_inj; rewrite -/(size o) => size_o le_o sub_o.
have le_x : all (leq x) o := order_path_min leq_trans le_o.
rewrite cwr_cons mem_cat; have := sub_o x (mem_head _ _).
rewrite in_cons => /orP[/eqP eq_xa|x_in].
  apply/orP; left; rewrite eq_xa; apply: map_f.
  apply: IHr => //; first exact: path_sorted le_o.
  by move=> y y_in; apply: sub_o; rewrite in_cons y_in orbT.
apply/orP; right; apply: IHp => //; first by rewrite /= size_o.
move=> y; rewrite in_cons => /orP[/eqP->//|y_in].
have := sub_o y; rewrite !in_cons y_in orbT => /(_ isT) /orP[/eqP eq_ya|//].
have := lt_a x x_in; have /allP/(_ y y_in) := le_x.
by rewrite eq_ya leqNgt => /negPf->.
Qed.

Lemma mem_cwr_faces m n o :
  (o \in combinations_with_replacement (faces m) n) =
  [&& size o == n, sorted leq o & in_faces m o].
Proof.
apply/idP/idP=> [o_in|/and3P[/eqP size_o le_o /allP in_o]].
  have [-> sub_o] := cwrP o_in; rewrite eqxx /=.
  have /allP/(_ _ o_in)-> := cwr_sorted n (faces_increasing m).
  by apply/allP=> v /sub_o; rewrite mem_faces.
apply: cwr_complete => //; first exact: faces_increasing.
by move=> v /in_o; rewrite mem_faces.
Qed.

End Completeness.

(* ---- the weight counts the ordered rolls ---------------------------- *)

Section Orderings.

Variable m : nat.
Implicit Types (o t : seq nat) (v n : nat).

Lemma perm_eq_cons o v t :
  perm_eq o (v :: t) = (v \in o) && perm_eq (rem v o) t.
Proof.
have [v_in|v_notin] := boolP (v \in o).
  by rewrite (permPl (perm_to_rem v_in)) perm_cons.
apply: contraNF v_notin => /perm_mem->.
exact: mem_head.
Qed.

Lemma count_allpairs (P : pred (seq nat)) (F : seq nat) (R : seq (seq nat)) :
  count P [seq v :: t | v <- F, t <- R] =
  \sum_(v <- F) count (fun t => P (v :: t)) R.
Proof.
elim: F => [|v F IHF]; first by rewrite big_nil.
by rewrite allpairs_cons count_cat count_map IHF big_cons.
Qed.

(* An ordered roll that rearranges o starts with a value v of o and     *)
(* goes on with a rearrangement of what is left of o.                   *)
Lemma count_rolls o n :
  count (perm_eq o) (rolls m n.+1) =
  \sum_(v <- faces m | v \in o) count (perm_eq (rem v o)) (rolls m n).
Proof.
rewrite [rolls _ _]/= count_allpairs [RHS]big_mkcond /=.
apply: eq_bigr => v _; have [v_in|v_notin] := boolP (v \in o).
  by apply: eq_count => t; rewrite perm_eq_cons v_in.
by rewrite -(@eq_count _ pred0) ?count_pred0 // => t; rewrite perm_eq_cons (negPf v_notin).
Qed.

Lemma faces_divisor_rem o v :
  v \in faces m -> v \in o ->
  faces_divisor m o = count_mem v o * faces_divisor m (rem v o).
Proof.
move=> v_face v_in; rewrite /faces_divisor.
rewrite !(bigD1_seq v) ?faces_uniq //= mulnA count_mem_rem eqxx.
congr (_ * _); last first.
  by apply: eq_bigr => u ne_uv; rewrite count_mem_rem eq_sym (negPf ne_uv) subn0.
have: 0 < count_mem v o by rewrite -has_count has_pred1.
by case: (count_mem v o) => // c _; rewrite subn1.
Qed.

Lemma sum_count_faces o :
  {subset o <= faces m} -> \sum_(v <- faces m) count_mem v o = size o.
Proof.
elim: o => [_|x o IHo sub_o]; first by rewrite big1.
have sub_o' : {subset o <= faces m}.
  by move=> v v_in; apply: sub_o; rewrite in_cons v_in orbT.
rewrite /= big_split /= (IHo sub_o') -add1n; congr (_ + _).
have <- : count_mem x (faces m) = 1.
  by rewrite (count_uniq_mem x (faces_uniq m)) sub_o ?mem_head.
rewrite -sum1_count [RHS]big_mkcond /=.
by apply: eq_bigr => v _; rewrite eq_sym; case: eqP.
Qed.

(* Each rearrangement is reached by c1! * ... * cm! of the n!           *)
(* permutations of the positions.                                       *)
Lemma orderings_divisor n o :
  size o = n -> {subset o <= faces m} ->
  count (perm_eq o) (rolls m n) * faces_divisor m o = n`!.
Proof.
elim: n o => [|n IHn] o.
  by move/size0nil=> -> _; rewrite /faces_divisor big1.
move=> size_o sub_o; rewrite count_rolls big_distrl /=.
rewrite factS -[in RHS]size_o -(sum_count_faces sub_o) big_distrl /=.
rewrite [LHS]big_mkcond /=; apply: eq_big_seq => v v_face.
case: ifPn => [v_in|/count_memPn->//].
have size_rem_o : size (rem v o) = n by rewrite size_rem // size_o.
have sub_rem_o : {subset rem v o <= faces m} by move=> u /mem_rem/sub_o.
by rewrite (faces_divisor_rem v_face v_in) mulnCA (IHn _ size_rem_o sub_rem_o).
Qed.

Lemma faces_divisor_multiplicities o :
  {subset o <= faces m} -> faces_divisor m o = multiplicities_divisor o.
Proof.
move=> sub_o; rewrite /faces_divisor /multiplicities_divisor.
have ->: \prod_(v <- faces m) (count_mem v o)`! =
         \prod_(v <- faces m | v \in o) (count_mem v o)`!.
  rewrite [RHS]big_mkcond /=; apply: eq_bigr => v _.
  by case: ifPn => // /count_memPn->.
rewrite -big_filter; apply: perm_big; apply: uniq_perm.
- exact/filter_uniq/faces_uniq.
- exact: undup_uniq.
by move=> v; rewrite mem_filter mem_undup andb_idr //; apply: sub_o.
Qed.

End Orderings.

(* ---- the ordered rolls and their sorted representatives ------------- *)

Section Rolls.

Variable m : nat.
Implicit Types (o t : seq nat) (v n : nat).

Lemma mem_rolls n t :
  (t \in rolls m n) = (size t == n) && all (mem (faces m)) t.
Proof.
elim: n t => [|n IHn] t; first by rewrite mem_seq1; case: t.
apply/allpairsP/idP => [[[v t'] /= [v_in t_in ->]]|].
  by move: t_in; rewrite IHn /= eqSS v_in.
case: t => [|v t] //=; rewrite eqSS andbCA -IHn => /andP[v_in t_in].
by exists (v, t).
Qed.

Lemma size_rolls n : size (rolls m n) = m ^ n.
Proof.
by elim: n => [|n IHn] //; rewrite /= size_allpairs IHn size_iota expnS.
Qed.

(* The only non-decreasing rearrangement of a roll is the sorted roll. *)
Lemma sorted_perm_roll o t :
  sorted leq o -> perm_eq o t = (o == sort leq t).
Proof.
move=> le_o; apply/idP/eqP=> [perm_ot|->]; last exact/permEl/perm_sort.
apply: (sorted_eq leq_trans anti_leq) => //.
  exact: (sort_sorted leq_total).
by rewrite perm_sym (permPl (permEl (perm_sort leq t))) perm_sym.
Qed.

Lemma sort_roll_outcome n t :
  t \in rolls m n ->
  sort leq t \in combinations_with_replacement (faces m) n.
Proof.
rewrite mem_rolls mem_cwr_faces size_sort => /andP[-> in_t] /=.
rewrite (sort_sorted leq_total) /= /in_faces all_sort.
by apply: sub_all in_t => v; rewrite /= mem_faces.
Qed.

End Rolls.

(* ---- the extremes of the weight ------------------------------------- *)

Section Extremes.

Implicit Types (o : seq nat) (v n c : nat).

Lemma fact_eq1 c : (c`! == 1) = (c <= 1).
Proof. by case: c => [|[|c]] //; rewrite factS muln_eq1. Qed.

Lemma multiplicities_divisor_gt0 o : 0 < multiplicities_divisor o.
Proof. by apply: prodn_gt0 => v; apply: fact_gt0. Qed.

(* No division at all is due exactly when no value comes twice. *)
Lemma multiplicities_divisor_eq1 o : (multiplicities_divisor o == 1) = uniq o.
Proof.
rewrite /multiplicities_divisor prod_nat_seq_eq1 /=.
apply/allP/idP=> [le1|uniq_o v]; last first.
  by rewrite mem_undup => v_in; rewrite count_uniq_mem // v_in.
apply: count_mem_uniq => v; have [v_in|/count_memPn->//] := boolP (v \in o).
have:= le1 v; rewrite mem_undup fact_eq1 => /(_ v_in).
have: 0 < count_mem v o by rewrite -has_count has_pred1.
by case: (count_mem v o) => [|[|c]].
Qed.

Lemma scan_divisor_const n v : scan_divisor None 0 (nseq n v) = n`!.
Proof.
case: n => [|n] //.
by rewrite scan_divisor_runs /runs_divisor run_lengths_nseq big_seq1.
Qed.

Lemma answers_all (A : Type) (rest : seq A) j :
  answers rest (size rest + j) = [seq Some x | x <- rest] ++ nseq j None.
Proof.
elim: rest => [|x rest IHr] /=; last by rewrite IHr.
by elim: j => [|j IHj] //=; rewrite IHj.
Qed.

End Extremes.

Lemma cwr_faces_uniq n m : uniq (combinations_with_replacement (faces m) n).
Proof.
apply: pairwise_uniq tuple_lt_irr _.
exact/cwr_increasing/faces_increasing.
Qed.

Lemma freq_divisor n m p :
  p \in dice_set_freqs n m ->
  [/\ {subset p.1 <= faces m}, multiplicities_divisor p.1 %| n`!
    & p.2 = n`! %/ multiplicities_divisor p.1].
Proof.
case/freqsP=> /cwrP[_ sub_p] size_p sorted_p ->.
rewrite -(scan_divisor_multiplicities sorted_p); split=> //.
by rewrite -size_p scan_divisor0_dvd.
Qed.

(** X1: the outcomes yielded by dice_set_freqs(N, M) are exactly the
    non-decreasing N-tuples of values of [1, M]: none is left out. *)
Theorem outcomes_are_all_sorted_tuples n m o :
  (o \in [seq p.1 | p <- dice_set_freqs n m]) =
  [&& size o == n, sorted leq o & in_faces m o].
Proof. by rewrite outcomes_freqs mem_cwr_faces. Qed.

(** X2: the weight yielded with an outcome is the number of ordered rolls
    of N dice with faces 1..M that are rearrangements of the outcome. *)
Theorem weight_counts_orderings n m :
  all (fun p => p.2 == orderings m p.1) (dice_set_freqs n m).
Proof.
apply/allP=> p p_in; have [sub_p _ ->] := freq_divisor p_in.
have [_ size_p _ _] := freqsP p_in.
rewrite -(faces_divisor_multiplicities sub_p) /orderings size_p.
rewrite -(orderings_divisor size_p sub_p) mulnK //.
by rewrite (faces_divisor_multiplicities sub_p) multiplicities_divisor_gt0.
Qed.

(** X3: every weight yielded by dice_set_freqs(N, M) is at least 1 and
    divides N!. *)
Theorem weight_positive n m :
  all (fun p => (0 < p.2) && (p.2 %| n`!)) (dice_set_freqs n m).
Proof.
apply/allP=> p /freq_divisor[_ dvd_p ->].
rewrite divn_gt0 ?multiplicities_divisor_gt0 // dvdn_div // andbT.
by rewrite dvdn_leq ?fact_gt0.
Qed.

(** X4: an outcome is yielded with the full weight N! exactly when its
    values are pairwise distinct. *)
Theorem full_weight_iff_distinct n m :
  all (fun p => (p.2 == n`!) == uniq p.1) (dice_set_freqs n m).
Proof.
apply/allP=> p /freq_divisor[_ dvd_p ->].
rewrite -multiplicities_divisor_eq1.
set D := multiplicities_divisor p.1 in dvd_p *.
have q_gt0 : 0 < n`! %/ D.
  by rewrite divn_gt0 ?multiplicities_divisor_gt0 // dvdn_leq ?fact_gt0.
rewrite -{2}(divnK dvd_p) -{1}[n`! %/ D]muln1 eqn_pmul2l //.
by rewrite [1 == D]eq_sym.
Qed.

(** X5: when all N dice show the same face v of [1, M], the outcome
    (v, ..., v) is yielded with weight 1. *)
Theorem equal_dice_weight_one n m v :
  1 <= v <= m -> (nseq n v, 1) \in dice_set_freqs n m.
Proof.
move=> v_face.
have <- : outcome_weight n`! (nseq n v) = 1.
  by rewrite outcome_weightE scan_divisor_const divnn fact_gt0.
apply: map_f; rewrite mem_cwr_faces size_nseq eqxx /=.
rewrite /in_faces all_nseq v_face orbT andbT.
by case: n => [|n] //=; elim: n => [|n IHn] //=; rewrite leqnn.
Qed.

Lemma equal_dice_weight_one_witness :
  (1 <= 3 <= 6) /\ (nseq 2 3, 1) \in dice_set_freqs 2 6.
Proof. split; [reflexivity | apply: (@equal_dice_weight_one 2 6 3); reflexivity]. Defined.

(** X6: with at least one face, the first pair yielded is
    ((1, ..., 1), 1) and the last one ((M, ..., M), 1). *)
Theorem first_and_last_pair n m :
  ohead (dice_set_freqs n m.+1) = Some (nseq n 1, 1) /\
  last (nseq n 1, 1) (dice_set_freqs n m.+1) = (nseq n m.+1, 1).
Proof.
have [rest cwrE [_ last_r]] := @cwr_chain (1 + m.+1) m 1 n (erefl _).
have one v : outcome_weight n`! (nseq n v) = 1.
  by rewrite outcome_weightE scan_divisor_const divnn fact_gt0.
pose pair o := (o, outcome_weight n`! o).
have pairE v : pair (nseq n v) = (nseq n v, 1) by rewrite /pair one.
have -> : dice_set_freqs n m.+1 = pair (nseq n 1) :: [seq pair o | o <- rest].
  by rewrite /dice_set_freqs /faces cwrE.
by rewrite -!pairE /= last_map last_r add1n subn1.
Qed.

(** X7: the generator made by dice_set_freqs(N, M) answers its first
    calls of next() with the pairs in order and every later call with
    StopIteration; consumed to its end, as dice_unordered does, it has
    given exactly the pairs. *)
Theorem generator_exhaustion n m j :
  let pairs := dice_set_freqs n m in
  nexts (size pairs + j) (Created n m) =
    [seq Some p | p <- pairs] ++ nseq j None /\
  collect (size pairs + j.+1) (Created n m) = pairs.
Proof.
split; first by rewrite (@nexts_left _ _ (dice_set_freqs n m)) // answers_all.
by apply: collect_freqs; rewrite addnS ltnS leq_addr.
Qed.

(** X8: every ordered roll of N dice with faces 1..M is the
    rearrangement of exactly one yielded outcome, the roll sorted from
    smallest to largest. *)
Theorem roll_has_one_outcome n m :
  all (fun t => [seq p.1 | p <- dice_set_freqs n m & perm_eq p.1 t]
                == [:: sort leq t])
      (rolls m n).
Proof.
apply/allP=> t t_in; apply/eqP.
rewrite -(filter_map _ (fun o => perm_eq o t)) outcomes_freqs.
rewrite -(filter_pred1_uniq (cwr_faces_uniq n m) (sort_roll_outcome t_in)).
apply: eq_in_filter => o o_in /=; apply: sorted_perm_roll.
by have /allP/(_ _ o_in) := cwr_sorted n (faces_increasing m).
Qed.

